(** * The iterator pattern of JS-basics: closure iterator and DOM iterator

    Source: the "ITERATOR PATTERN" snippet.  Two immediately-invoked blocks
    build the same four-method object ([hasNext], [getNext], [getCurrent],
    [rewind]) around two closure variables, [i] and [data]:
    - [myObj] fills [data] with an array literal;
    - [getDOMIterator(element)] fills [data] by the recursive helper
      [DOMToArray], which pushes every element node of the subtree.

    The snippet is a classic script (no strict-mode directive), so the
    assignment [elem = data[i]] in [getNext] writes a property of the
    global object; the embedding keeps that global in the state.  Methods
    are called as methods ([it.getNext()]), so [this.hasNext()] is the
    sibling method. *)

From stdpp Require Import base option list gmap strings.
From Stdlib Require Import ZArith Lia.

(** ** Values and the DOM heap *)

(** Object identity. *)
Definition loc := positive.

(** JavaScript values, as far as the snippet can tell them apart.  Numbers
    are the integer-valued ones (the cursor, array lengths, [nodeType]). *)
Inductive value : Type :=
  | VUndefined
  | VNull
  | VBool (b : bool)
  | VNum (n : Z)
  | VStr (s : string)
  | VRef (l : loc).

#[global] Instance value_eq_dec : EqDecision value.
Proof. solve_decision. Defined.

(** A DOM node: what [DOMToArray] reads of it.  [children] is the node's
    [HTMLCollection], a sequence of objects. *)
Record node : Type := Node {
  tagName : string;
  nodeType : Z;
  children : list loc
}.

(** The document: a finite map from identities to nodes.  A reference
    outside its domain is an object that is not a DOM node (it has no
    [nodeType] and no [children] property). *)
Abbreviation dom_heap := (gmap loc node).

Inductive error : Type := TypeError | ReferenceError.

(** Result of running a piece of the snippet.  [OutOfFuel] belongs to the
    embedding only: the recursion of [DOMToArray] is bounded by a fuel. *)
Inductive outcome (A : Type) : Type :=
  | Ok (a : A)
  | Throw (e : error)
  | OutOfFuel.
Arguments Ok {A} a.
Arguments Throw {A} e.
Arguments OutOfFuel {A}.

(** ** State: the two closure variables, the global [elem], the document *)

Record state : Type := State {
  heap : dom_heap;
  elem : option value;   (* global [elem]; [None] while it does not exist *)
  i : Z;                 (* [let i] *)
  data : list value      (* [let data] *)
}.

Definition M (A : Type) : Type := state → outcome (A * state).

#[global] Instance M_ret : MRet M := λ A a s, Ok (a, s).
#[global] Instance M_bind : MBind M := λ A B f m s,
  match m s with
  | Ok (a, s') => f a s'
  | Throw e => Throw e
  | OutOfFuel => OutOfFuel
  end.

Definition out_of_fuel {A} : M A := λ _, OutOfFuel.

Definition get_i : M Z := λ s, Ok (i s, s).
Definition set_i (k : Z) : M unit := λ s,
  Ok ((), {| heap := heap s; elem := elem s; i := k; data := data s |}).
Definition get_data : M (list value) := λ s, Ok (data s, s).
(** [data.push(v)] *)
Definition push (v : value) : M unit := λ s,
  Ok ((), {| heap := heap s; elem := elem s; i := i s; data := data s ++ [v] |}).
(** [elem = v]: creates or overwrites the global. *)
Definition set_elem (v : value) : M unit := λ s,
  Ok ((), {| heap := heap s; elem := Some v; i := i s; data := data s |}).
(** Reading the identifier [elem]: a ReferenceError while it does not exist. *)
Definition get_elem : M value := λ s,
  match elem s with
  | Some v => Ok (v, s)
  | None => Throw ReferenceError
  end.

(** [d[k]] on an array: [undefined] out of range. *)
Definition index (d : list value) (k : Z) : value :=
  if (k <? 0)%Z then VUndefined else default VUndefined (d !! Z.to_nat k).

(** [a === b]; there is no NaN among the modelled numbers. *)
Definition strict_eq (a b : value) : bool := bool_decide (a = b).

(** ** The four methods (identical in [myObj] and [getDOMIterator]) *)

(** [hasNext() { return i < data.length; }] *)
Definition hasNext : M bool :=
  k ← get_i; d ← get_data; mret (k <? Z.of_nat (length d))%Z.

(** [getNext() { if (!this.hasNext()) { return null; }
                 elem = data[i]; i += 1; return elem; }] *)
Definition getNext : M value :=
  b ← hasNext;
  if negb b then mret VNull
  else
    k ← get_i; d ← get_data;
    set_elem (index d k);;
    k ← get_i;
    set_i (k + 1)%Z;;
    get_elem.

(** [getCurrent() { if (!this.hasNext()) { return null; } return data[i]; }] *)
Definition getCurrent : M value :=
  b ← hasNext;
  if negb b then mret VNull
  else k ← get_i; d ← get_data; mret (index d k).

(** [rewind() { i = 0; }] *)
Definition rewind : M unit := set_i 0.

(** ** Construction *)

(** [myObj]: the closure over [i = 0] and an array literal.  The literal of
    the source is [myObj_data]; [S] stands for any literal. *)
Definition myObj (S : list value) (h : dom_heap) (g : option value) : state :=
  {| heap := h; elem := g; i := 0; data := S |}.

Definition myObj_data : list value := [VNum 1; VNum 2; VNum 3; VNum 4; VNum 5].

(** Reading a property of the document inside a run. *)
Definition read {A} (f : dom_heap → outcome A) : M A := λ s,
  match f (heap s) with
  | Ok a => Ok (a, s)
  | Throw e => Throw e
  | OutOfFuel => OutOfFuel
  end.

(** [element.nodeType]: a TypeError on [null] and [undefined], [undefined]
    on a primitive or on an object that is not a node. *)
Definition get_nodeType (element : value) (h : dom_heap) : outcome value :=
  match element with
  | VUndefined | VNull => Throw TypeError
  | VRef l =>
      match h !! l with
      | Some n => Ok (VNum (nodeType n))
      | None => Ok VUndefined
      end
  | VBool _ | VNum _ | VStr _ => Ok VUndefined
  end.

(** [Array.from(element.children)]: a fresh array of the children; a
    TypeError when [element.children] is [undefined] or [element] has no
    properties. *)
Definition get_children (element : value) (h : dom_heap) : outcome (list value) :=
  match element with
  | VRef l =>
      match h !! l with
      | Some n => Ok (VRef <$> children n)
      | None => Throw TypeError
      end
  | _ => Throw TypeError
  end.

(** The test of [DOMToArray], [element.nodeType === 1], as a predicate:
    false also where evaluating it throws. *)
Definition is_element (h : dom_heap) (element : value) : bool :=
  match get_nodeType element h with
  | Ok nt => strict_eq nt (VNum 1)
  | _ => false
  end.

(** [arr.forEach(f)] *)
Fixpoint forEach {A} (f : A → M unit) (arr : list A) : M unit :=
  match arr with
  | [] => mret ()
  | x :: arr' => f x;; forEach f arr'
  end.

(** [function DOMToArray(element) {
       if (element.nodeType === 1) {
         data.push(element);
         Array.from(element.children).forEach((child) => { DOMToArray(child); });
       } }] *)
Fixpoint DOMToArray (fuel : nat) (element : value) : M unit :=
  match fuel with
  | O => out_of_fuel
  | S fuel' =>
      nt ← read (get_nodeType element);
      if strict_eq nt (VNum 1) then
        push element;;
        cs ← read (get_children element);
        forEach (DOMToArray fuel') cs
      else mret ()
  end.

(** [getDOMIterator(element)]: [let i = 0, data = []; DOMToArray(element);]
    and the returned object closes over the two variables. *)
Definition getDOMIterator (fuel : nat) (element : value)
    (h : dom_heap) (g : option value) : outcome state :=
  match DOMToArray fuel element {| heap := h; elem := g; i := 0; data := [] |} with
  | Ok (_, s) => Ok s
  | Throw e => Throw e
  | OutOfFuel => OutOfFuel
  end.

(** ** Clients *)

Inductive method : Type := HasNext | GetNext | GetCurrent | Rewind.

(** One method call and the value the caller sees. *)
Definition call (m : method) : M value :=
  match m with
  | HasNext => b ← hasNext; mret (VBool b)
  | GetNext => getNext
  | GetCurrent => getCurrent
  | Rewind => rewind;; mret VUndefined
  end.

(** A run of method calls, collecting the results. *)
Fixpoint calls (ms : list method) : M (list value) :=
  match ms with
  | [] => mret []
  | m :: ms' => v ← call m; vs ← calls ms'; mret (v :: vs)
  end.

(** The consumer loop [while (it.hasNext()) out.push(it.getNext());]. *)
Fixpoint drain (fuel : nat) : M (list value) :=
  match fuel with
  | O => out_of_fuel
  | S fuel' =>
      b ← hasNext;
      if (b : bool) then v ← getNext; vs ← drain fuel'; mret (v :: vs)
      else mret []
  end.

(** What the caller sees of a run. *)
Definition result {A} (r : outcome (A * state)) : outcome A :=
  match r with
  | Ok (a, _) => Ok a
  | Throw e => Throw e
  | OutOfFuel => OutOfFuel
  end.

(** What may happen between two calls: a call, or the page's scripts
    changing the document. *)
Inductive event : Type := Call (m : method) | Mutate (h' : dom_heap).

Definition set_heap (h' : dom_heap) : M unit := λ s,
  Ok ((), {| heap := h'; elem := elem s; i := i s; data := data s |}).

Fixpoint run (es : list event) : M (list value) :=
  match es with
  | [] => mret []
  | Call m :: es' => v ← call m; vs ← run es'; mret (v :: vs)
  | Mutate h' :: es' => set_heap h';; run es'
  end.

Fixpoint method_calls (es : list event) : list method :=
  match es with
  | [] => []
  | Call m :: es' => m :: method_calls es'
  | Mutate _ :: es' => method_calls es'
  end.

(** ** Trees in the document *)

#[local] Unset Elimination Schemes.

(** A finite unfolding of the document from a node: the node's identity,
    its record, and the unfoldings of its children in order. *)
Inductive tree : Type := Tree (l : loc) (n : node) (ts : list tree).

Definition root (t : tree) : loc := match t with Tree l _ _ => l end.
Definition label (t : tree) : node := match t with Tree _ n _ => n end.

Fixpoint depth (t : tree) : nat :=
  match t with
  | Tree _ _ ts => S (max_list (depth <$> ts))
  end.

(** [t] unfolds the document [h]: every node of [t] is a node of [h] with
    the children [t] gives it. *)
Inductive is_tree (h : dom_heap) : tree → Prop :=
  | is_tree_node l n ts :
      h !! l = Some n →
      children n = root <$> ts →
      Forall (is_tree h) ts →
      is_tree h (Tree l n ts).

#[local] Set Elimination Schemes.

(** Pre-order traversal in the spec's words: visit the node, then recurse
    into each child in child order; a node that is not traversable is
    skipped and its subtree is not visited. *)
Fixpoint preorder (t : tree) : list value :=
  match t with
  | Tree l n ts =>
      if (nodeType n =? 1)%Z then VRef l :: concat (preorder <$> ts) else []
  end.

(** ** The cursor invariant and the states the methods produce *)

Definition len (s : state) : Z := Z.of_nat (length (data s)).

Definition cursor_inv (s : state) : Prop := (0 ≤ i s ≤ len s)%Z.

#[global] Instance cursor_inv_dec s : Decision (cursor_inv s).
Proof. unfold cursor_inv. apply _. Defined.

(** The state after a successful [getNext]. *)
Definition advance (s : state) : state :=
  {| heap := heap s; elem := Some (index (data s) (i s));
     i := (i s + 1)%Z; data := data s |}.

(** The state after [rewind]. *)
Definition at_start (s : state) : state :=
  {| heap := heap s; elem := elem s; i := 0; data := data s |}.

(** Two iterators with the same items and the same cursor. *)
Definition same_iterator (s1 s2 : state) : Prop :=
  i s1 = i s2 ∧ data s1 = data s2.

(** An iterator as one of the two blocks of the source builds it. *)
Definition constructed (s : state) : Prop :=
  (∃ S h g, s = myObj S h g) ∨
  (∃ fuel element h g, getDOMIterator fuel element h g = Ok s).

(** The document of the source's comment, as far as [querySelector('ul')]
    reaches: [<ul><li><a/></li><li><a/></li></ul>]. *)
Definition ul : loc := 1%positive.
Definition li1 : loc := 2%positive.
Definition a1 : loc := 3%positive.
Definition li2 : loc := 4%positive.
Definition a2 : loc := 5%positive.

Definition ul_heap : dom_heap :=
  <[ul := Node "UL" 1 [li1; li2]]>
  (<[li1 := Node "LI" 1 [a1]]>
  (<[a1 := Node "A" 1 []]>
  (<[li2 := Node "LI" 1 [a2]]>
  (<[a2 := Node "A" 1 []]> ∅)))).

(** Its unfolding from the list. *)
Definition ul_tree : tree :=
  Tree ul (Node "UL" 1 [li1; li2])
    [Tree li1 (Node "LI" 1 [a1]) [Tree a1 (Node "A" 1 []) []];
     Tree li2 (Node "LI" 1 [a2]) [Tree a2 (Node "A" 1 []) []]].

(** A list with two empty items: a root with two leaf children. *)
Definition two_leaf_heap : dom_heap :=
  <[ul := Node "UL" 1 [li1; li2]]>
  (<[li1 := Node "LI" 1 []]>
  (<[li2 := Node "LI" 1 []]> ∅)).

Definition two_leaf_tree : tree :=
  Tree ul (Node "UL" 1 [li1; li2])
    [Tree li1 (Node "LI" 1 []) []; Tree li2 (Node "LI" 1 []) []].

(** ** Objects iterated through [Symbol.iterator] *)

(** An object as the two last blocks of the snippet use one: its own
    enumerable string-keyed data properties, in the order [Object.keys]
    lists them, and what the prototype chain answers for any other key.
    ([Symbol.iterator] itself is symbol-keyed: [Object.keys] leaves it
    out.) *)
Record object : Type := Obj {
  props : list (string * value);
  inherited : string → value
}.

(** [Object.keys(o)] *)
Definition Object_keys (o : object) : list string := (props o).*1.

Fixpoint own (ps : list (string * value)) (k : string) : option value :=
  match ps with
  | [] => None
  | (k', v) :: ps' => if decide (k' = k) then Some v else own ps' k
  end.

(** [o[k]] for a string key: the own property, else the inherited one. *)
Definition prop (o : object) (k : string) : value :=
  default (inherited o k) (own (props o) k).

(** The key [keys[i]] denotes in [this[keys[i]]]: past the end [keys[i]]
    is [undefined], which names the property "undefined". *)
Definition to_key (k : option string) : string := default "undefined" k.

(** [{ value, done }] *)
Record IteratorResult : Type := Result {
  value_ : value;
  done : bool
}.

(** The iterator protocol: an object with a [next] method. *)
Class Iterator (I : Type) : Type := next : I → IteratorResult * I.

(** [[...it]] and [for (const val of it)]: call [next] until it reports
    [done], keeping the values before. *)
Fixpoint spread {I} `{Iterator I} (fuel : nat) (it : I) : option (list value) :=
  match fuel with
  | O => None
  | S fuel' =>
      let (r, it') := next it in
      if done r then Some [] else (value_ r ::.) <$> spread fuel' it'
  end.

(** The [k]-th later state of an iterator. *)
Fixpoint after {I} `{Iterator I} (k : nat) (it : I) : I :=
  match k with
  | O => it
  | S k' => after k' (next it).2
  end.

(** "CLASSICAL APPROACH":
    [[Symbol.iterator]() { let keys = Object.keys(this), i = 0;
       return { next: () => { const value = this[keys[i]]; i += 1;
                              const done = i > keys.length;
                              return { value, done }; } }; }] *)
Module Classical.

(** The closure of [next]: [this] is the iterated object itself (the arrow
    function keeps it), [keys] and [i] are the two variables. *)
Record iterator : Type := Iter {
  this : object;
  keys : list string;
  i : nat
}.

Definition Symbol_iterator (obj : object) : iterator :=
  {| this := obj; keys := Object_keys obj; i := 0 |}.

Definition next (it : iterator) : IteratorResult * iterator :=
  let value := prop (this it) (to_key (keys it !! i it)) in
  let i' := i it + 1 in
  let done := bool_decide (length (keys it) < i') in
  ({| value_ := value; done := done |},
   {| this := this it; keys := keys it; i := i' |}).

(** The object changes under the iterator. *)
Definition mutate (obj' : object) (it : iterator) : iterator :=
  {| this := obj'; keys := keys it; i := i it |}.

End Classical.

#[global] Instance classical_Iterator : Iterator Classical.iterator :=
  Classical.next.

(** "GENERATOR FUNCTION APPROACH":
    [*[Symbol.iterator]() { const keys = Object.keys(this);
       for (let i = 0; i < keys.length; i++) { yield this[keys[i]]; } }]
    The generator object is the body suspended at one of its three
    resting points. *)
Module Generator.

Inductive position : Type :=
  | Start                                   (* created, body not entered *)
  | Yielded (keys : list string) (i : nat)  (* suspended at the [yield] *)
  | Finished.                               (* body returned *)

Record generator : Type := Gen {
  this : object;
  pos : position
}.

Definition Symbol_iterator (obj : object) : generator :=
  {| this := obj; pos := Start |}.

(** From the loop test [i < keys.length] to the next resting point. *)
Definition loop (this : object) (keys : list string) (i : nat)
    : IteratorResult * generator :=
  if bool_decide (i < length keys) then
    ({| value_ := prop this (to_key (keys !! i)); done := false |},
     {| this := this; pos := Yielded keys i |})
  else
    ({| value_ := VUndefined; done := true |},
     {| this := this; pos := Finished |}).

Definition next (g : generator) : IteratorResult * generator :=
  match pos g with
  | Start => loop (this g) (Object_keys (this g)) 0
  | Yielded keys i => loop (this g) keys (i + 1)
  | Finished => ({| value_ := VUndefined; done := true |}, g)
  end.

Definition mutate (obj' : object) (g : generator) : generator :=
  {| this := obj'; pos := pos g |}.

End Generator.

#[global] Instance generator_Iterator : Iterator Generator.generator :=
  Generator.next.

(** The object of both blocks: [{ a: 1, b: 2, c: 3, d: 4 }], a literal, so
    nothing it inherits is named like one of its keys. *)
Definition obj : object :=
  {| props := [("a", VNum 1); ("b", VNum 2); ("c", VNum 3); ("d", VNum 4)];
     inherited := λ _, VUndefined |}.

(** * Properties *)

(** The calls the first block of the source prints, with its comments. *)
Example myObj_scenario :
  result (calls [GetNext; GetNext; GetNext; GetNext; GetNext; GetNext;
                 Rewind; GetCurrent; GetCurrent; GetNext; GetNext]
            (myObj myObj_data ∅ None))
  = Ok [VNum 1; VNum 2; VNum 3; VNum 4; VNum 5; VNull;
        VUndefined; VNum 1; VNum 1; VNum 1; VNum 2].
Proof. reflexivity. Qed.

(** The calls the second block prints: ul, li, a, li, a, null. *)
Example listIterator_scenario :
  match getDOMIterator 3 (VRef ul) ul_heap None with
  | Ok listIterator =>
      result (calls [GetNext; GetNext; GetNext; GetNext; GetNext; GetNext]
                listIterator)
  | Throw e => Throw e
  | OutOfFuel => OutOfFuel
  end
  = Ok [VRef ul; VRef li1; VRef a1; VRef li2; VRef a2; VNull].
Proof. vm_compute. reflexivity. Qed.

(** [document.querySelector('ul')] is [null] on a page without a list. *)
Example listIterator_no_list :
  getDOMIterator 3 VNull ∅ None = Throw TypeError.
Proof. reflexivity. Qed.

(** ** Equations of the methods *)

Lemma hasNext_eq s : hasNext s = Ok ((i s <? len s)%Z, s).
Proof. reflexivity. Qed.

Lemma getNext_eq s :
  getNext s = if (i s <? len s)%Z then Ok (index (data s) (i s), advance s)
              else Ok (VNull, s).
Proof.
  unfold getNext, mbind, M_bind. rewrite hasNext_eq.
  destruct (i s <? len s)%Z; reflexivity.
Qed.

Lemma getCurrent_eq s :
  getCurrent s = Ok (if (i s <? len s)%Z then index (data s) (i s) else VNull, s).
Proof.
  unfold getCurrent, mbind, M_bind. rewrite hasNext_eq.
  destruct (i s <? len s)%Z; reflexivity.
Qed.

Lemma rewind_eq s : rewind s = Ok ((), at_start s).
Proof. reflexivity. Qed.

Create Rewrite HintDb iterator.
#[local] Hint Rewrite hasNext_eq getNext_eq getCurrent_eq rewind_eq : iterator.

Lemma index_lookup (d : list value) (k : nat) v :
  d !! k = Some v → index d (Z.of_nat k) = v.
Proof.
  intros Hk. unfold index.
  destruct (Z.ltb_spec (Z.of_nat k) 0) as [Hlt|_]; [lia|].
  rewrite Nat2Z.id, Hk. reflexivity.
Qed.

Lemma index_in_range (d : list value) (k : Z) :
  (0 ≤ k < Z.of_nat (length d))%Z → index d k ∈ d.
Proof.
  intros Hk.
  destruct (lookup_lt_is_Some_2 d (Z.to_nat k)) as [v Hv]; [lia|].
  replace k with (Z.of_nat (Z.to_nat k)) by lia.
  rewrite (index_lookup _ _ _ Hv). eapply list_elem_of_lookup_2, Hv.
Qed.

Lemma index_not_null (d : list value) (k : Z) :
  VNull ∉ d → index d k ≠ VNull.
Proof.
  intros Hd. unfold index.
  destruct (k <? 0)%Z; [discriminate|].
  destruct (d !! Z.to_nat k) as [v|] eqn:Hv; simpl; [|discriminate].
  intros ->. apply Hd. eapply list_elem_of_lookup_2, Hv.
Qed.

(** ** The traversal *)

(** Induction on trees, with the hypothesis for every child. *)
Lemma tree_ind (P : tree → Prop) :
  (∀ l n ts, Forall P ts → P (Tree l n ts)) → ∀ t, P t.
Proof.
  intros step. fix IH 1. intros [l n ts]. apply step.
  induction ts as [|t ts IHts]; constructor; [apply IH | exact IHts].
Qed.

Lemma strict_eq_num (a b : Z) : strict_eq (VNum a) (VNum b) = (a =? b)%Z.
Proof.
  unfold strict_eq. destruct (Z.eqb_spec a b) as [->|Hne].
  - apply bool_decide_eq_true_2. reflexivity.
  - apply bool_decide_eq_false_2. intros [= ?]. contradiction.
Qed.

Lemma strict_eq_undefined_one : strict_eq VUndefined (VNum 1) = false.
Proof. reflexivity. Qed.

Section Traversal.
Variable h : dom_heap.
Variable g : option value.
Variable k : Z.

Let st (d : list value) : state := {| heap := h; elem := g; i := k; data := d |}.

(** What a finished traversal of [t] does: it appends [preorder t]. *)
Let visits (fuel : nat) (t : tree) : Prop :=
  ∀ d, DOMToArray fuel (VRef (root t)) (st d) = Ok ((), st (d ++ preorder t)).

Lemma forEach_children fuel ts :
  Forall (visits fuel) ts →
  ∀ d, forEach (DOMToArray fuel) (VRef <$> (root <$> ts)) (st d)
       = Ok ((), st (d ++ concat (preorder <$> ts))).
Proof.
  induction 1 as [|t ts Ht _ IH]; intros d; simpl.
  - rewrite app_nil_r. reflexivity.
  - unfold mbind, M_bind. rewrite Ht. fold (@mbind M _).
    rewrite IH, app_assoc. reflexivity.
Qed.

Lemma DOMToArray_tree t :
  is_tree h t → ∀ fuel, depth t ≤ fuel → visits fuel t.
Proof.
  induction t as [l n ts IH] using tree_ind.
  intros Ht fuel Hfuel d. inversion Ht as [l' n' ts' Hl Hcs Hts]; subst.
  destruct fuel as [|fuel]; [simpl in Hfuel; lia|].
  cbn [DOMToArray root]. unfold mbind, M_bind, read. cbn [heap st get_nodeType].
  rewrite Hl, strict_eq_num. cbn [preorder].
  destruct (nodeType n =? 1)%Z.
  - unfold push. cbn beta iota. cbn [get_children heap elem i data st]. rewrite Hl, Hcs.
    change (forEach (DOMToArray fuel) (VRef <$> (root <$> ts)) (st (d ++ [VRef l]))
            = Ok ((), st (d ++ VRef l :: concat (preorder <$> ts)))).
    rewrite forEach_children.
    + rewrite <- app_assoc. reflexivity.
    + cbn [depth] in Hfuel.
      rewrite Forall_forall in IH, Hts. apply Forall_forall. intros t Hin.
      apply IH; [exact Hin|apply Hts, Hin|].
      assert (depth t ≤ max_list (depth <$> ts))
        by (apply max_list_elem_of_le, list_elem_of_fmap_2, Hin).
      lia.
  - unfold mret, M_ret. rewrite app_nil_r. reflexivity.
Qed.
End Traversal.

(** ** Runs of calls *)

Lemma bind_Ok {A B} (m : M A) (f : A → M B) s a s' :
  m s = Ok (a, s') → (m ≫= f) s = f a s'.
Proof. intros Hm. unfold mbind, M_bind. rewrite Hm. reflexivity. Qed.

Lemma bind_Ok_inv {A B} (m : M A) (f : A → M B) s r :
  (m ≫= f) s = Ok r → ∃ a s', m s = Ok (a, s') ∧ f a s' = Ok r.
Proof.
  unfold mbind, M_bind. destruct (m s) as [[a s']| |]; try discriminate; eauto.
Qed.

Lemma call_eq m s :
  call m s =
  match m with
  | HasNext => Ok (VBool (i s <? len s)%Z, s)
  | GetNext => if (i s <? len s)%Z then Ok (index (data s) (i s), advance s)
               else Ok (VNull, s)
  | GetCurrent => Ok (if (i s <? len s)%Z then index (data s) (i s) else VNull, s)
  | Rewind => Ok (VUndefined, at_start s)
  end.
Proof.
  destruct m; cbn [call].
  - reflexivity.
  - apply getNext_eq.
  - apply getCurrent_eq.
  - reflexivity.
Qed.

(** No call throws, whatever the cursor. *)
Lemma call_total m s : ∃ v s', call m s = Ok (v, s').
Proof.
  rewrite call_eq. destruct m; try destruct (i s <? len s)%Z; eauto.
Qed.

Lemma call_data m s v s' : call m s = Ok (v, s') → data s' = data s.
Proof.
  rewrite call_eq. destruct m; try destruct (i s <? len s)%Z;
    intros [= <- <-]; reflexivity.
Qed.

Lemma call_cursor_inv m s v s' :
  call m s = Ok (v, s') → cursor_inv s → cursor_inv s'.
Proof.
  rewrite call_eq. unfold cursor_inv, len.
  destruct m; try destruct (Z.ltb_spec (i s) (Z.of_nat (length (data s))));
    intros [= <- <-]; cbn [advance at_start i data]; lia.
Qed.

Lemma calls_cons m ms s v s1 vs s2 :
  call m s = Ok (v, s1) → calls ms s1 = Ok (vs, s2) →
  calls (m :: ms) s = Ok (v :: vs, s2).
Proof.
  intros Hm Hms. cbn [calls]. rewrite (bind_Ok _ _ _ _ _ Hm).
  rewrite (bind_Ok _ _ _ _ _ Hms). reflexivity.
Qed.

Lemma calls_app ms1 ms2 s vs1 s1 vs2 s2 :
  calls ms1 s = Ok (vs1, s1) → calls ms2 s1 = Ok (vs2, s2) →
  calls (ms1 ++ ms2) s = Ok (vs1 ++ vs2, s2).
Proof.
  revert s vs1. induction ms1 as [|m ms1 IH]; intros s vs1 H1 H2.
  - change (Ok ([], s) = Ok (vs1, s1)) in H1. injection H1 as <- <-. exact H2.
  - destruct (call_total m s) as (v & s' & Hm).
    cbn [calls] in H1. rewrite (bind_Ok _ _ _ _ _ Hm) in H1.
    apply bind_Ok_inv in H1 as (vs1' & s1' & Hms1 & [= <- <-]). cbn [app].
    eapply calls_cons; [exact Hm|]. eapply IH; eauto.
Qed.

(** Every run of calls returns, keeps [data] and keeps the invariant. *)
Lemma calls_total ms : ∀ s,
  ∃ vs s', calls ms s = Ok (vs, s') ∧ data s' = data s ∧ heap s' = heap s ∧
           (cursor_inv s → cursor_inv s').
Proof.
  induction ms as [|m ms IH]; intros s.
  - exists [], s. do 3 (split; [reflexivity|]). auto.
  - destruct (call_total m s) as (v & s1 & Hm).
    destruct (IH s1) as (vs & s2 & Hms & Hd & Hh & Hinv).
    exists (v :: vs), s2. split; [eapply calls_cons; eauto|].
    split; [rewrite Hd; eapply call_data; eauto|].
    split; [|intros; eapply Hinv, call_cursor_inv; eauto].
    rewrite Hh. revert Hm. rewrite call_eq.
    destruct m; try destruct (i s <? len s)%Z; intros [= <- <-]; reflexivity.
Qed.

(** [n] calls of [getNext] with [n] items left return them in order. *)
Lemma getNext_rest h rest : ∀ pre g,
  ∃ g', calls (replicate (length rest) GetNext)
          {| heap := h; elem := g; i := Z.of_nat (length pre); data := pre ++ rest |}
        = Ok (rest, {| heap := h; elem := g';
                       i := Z.of_nat (length (pre ++ rest)); data := pre ++ rest |}).
Proof.
  induction rest as [|x rest IH]; intros pre g.
  - exists g. rewrite app_nil_r. reflexivity.
  - destruct (IH (pre ++ [x]) (Some x)) as [g' Hg'].
    exists g'. cbn [length replicate].
    rewrite <- (app_assoc pre [x] rest) in Hg'. cbn [app] in Hg'.
    eapply calls_cons; [|rewrite length_app, Nat2Z.inj_add in Hg'; exact Hg'].
    rewrite call_eq. unfold len. cbn [i data].
    destruct (Z.ltb_spec (Z.of_nat (length pre)) (Z.of_nat (length (pre ++ x :: rest))))
      as [_|Hge]; [|rewrite length_app in Hge; cbn in Hge; lia].
    unfold advance. cbn [heap elem i data].
    rewrite (index_lookup _ _ x); [reflexivity|].
    rewrite lookup_app_r, Nat.sub_diag by lia. reflexivity.
Qed.

(** The consumer loop returns the items from the cursor on and stops at the
    end, once the fuel exceeds their number. *)
Lemma drain_rest h rest : ∀ pre g fuel,
  length rest < fuel →
  ∃ g', drain fuel
          {| heap := h; elem := g; i := Z.of_nat (length pre); data := pre ++ rest |}
        = Ok (rest, {| heap := h; elem := g';
                       i := Z.of_nat (length (pre ++ rest)); data := pre ++ rest |}).
Proof.
  induction rest as [|x rest IH]; intros pre g [|fuel] Hfuel; try (cbn in Hfuel; lia).
  - exists g. cbn [drain]. erewrite bind_Ok by apply hasNext_eq.
    unfold len. cbn [i data]. rewrite !app_nil_r, Z.ltb_irrefl. reflexivity.
  - destruct (IH (pre ++ [x]) (Some x) fuel) as [g' Hg']; [cbn in Hfuel; lia|].
    exists g'. cbn [drain]. erewrite bind_Ok by apply hasNext_eq.
    unfold len. cbn [i data].
    destruct (Z.ltb_spec (Z.of_nat (length pre)) (Z.of_nat (length (pre ++ x :: rest))))
      as [Hlt|Hge]; [|rewrite length_app in Hge; cbn in Hge; lia].
    erewrite bind_Ok; cycle 1.
    { rewrite getNext_eq. unfold len. cbn [i data].
      apply Z.ltb_lt in Hlt. rewrite Hlt. reflexivity. }
    unfold advance. cbn [heap elem i data].
    rewrite (index_lookup _ _ x) by (rewrite lookup_app_r, Nat.sub_diag by lia; reflexivity).
    rewrite <- (app_assoc pre [x] rest) in Hg'. cbn [app] in Hg'.
    rewrite length_app, Nat2Z.inj_add in Hg'. cbn [length] in Hg'.
    erewrite bind_Ok by exact Hg'. reflexivity.
Qed.

Lemma drain_from s fuel :
  cursor_inv s → (len s - i s < Z.of_nat fuel)%Z →
  ∃ s', drain fuel s = Ok (drop (Z.to_nat (i s)) (data s), s') ∧
        data s' = data s ∧ i s' = len s ∧ heap s' = heap s.
Proof.
  destruct s as [h g k d]. unfold cursor_inv, len. cbn [i data]. intros Hk Hfuel.
  destruct (drain_rest h (drop (Z.to_nat k) d) (take (Z.to_nat k) d) g fuel)
    as [g' Hg'].
  { rewrite length_drop. lia. }
  rewrite take_drop, length_take_le, Z2Nat.id in Hg' by lia.
  eexists. split; [exact Hg'|]. auto.
Qed.

(** ** Construction leaves the cursor alone *)

Lemma read_Ok_inv {A} (f : dom_heap → outcome A) s a s' :
  read f s = Ok (a, s') → s' = s ∧ f (heap s) = Ok a.
Proof.
  unfold read. destruct (f (heap s)); intros [= <- <-]; auto.
Qed.

Lemma forEach_frame {A} (f : A → M unit) :
  (∀ x s u s', f x s = Ok (u, s') →
     heap s' = heap s ∧ elem s' = elem s ∧ i s' = i s) →
  ∀ arr s u s', forEach f arr s = Ok (u, s') →
     heap s' = heap s ∧ elem s' = elem s ∧ i s' = i s.
Proof.
  intros Hf. induction arr as [|x arr IH]; intros s u s' Hrun.
  - injection Hrun as _ <-. auto.
  - cbn [forEach] in Hrun.
    apply bind_Ok_inv in Hrun as (u1 & s1 & Hx & Hrest).
    destruct (Hf _ _ _ _ Hx) as (Hh1 & He1 & Hi1).
    destruct (IH _ _ _ Hrest) as (Hh2 & He2 & Hi2).
    repeat split; congruence.
Qed.

Lemma DOMToArray_frame fuel : ∀ element s u s',
  DOMToArray fuel element s = Ok (u, s') →
  heap s' = heap s ∧ elem s' = elem s ∧ i s' = i s.
Proof.
  induction fuel as [|fuel IH]; intros element s u s' Hrun; [discriminate|].
  cbn [DOMToArray] in Hrun.
  apply bind_Ok_inv in Hrun as (nt & s1 & Hnt & Hrun).
  apply read_Ok_inv in Hnt as [-> _].
  destruct (strict_eq nt (VNum 1)).
  - apply bind_Ok_inv in Hrun as (u1 & s1 & [= _ <-] & Hrun).
    apply bind_Ok_inv in Hrun as (cs & s2 & Hcs & Hrun).
    apply read_Ok_inv in Hcs as [-> _].
    apply (forEach_frame _ (IH)) in Hrun. exact Hrun.
  - injection Hrun as _ <-. auto.
Qed.

Lemma getDOMIterator_Ok fuel element h g s :
  getDOMIterator fuel element h g = Ok s →
  heap s = h ∧ elem s = g ∧ i s = 0%Z.
Proof.
  unfold getDOMIterator.
  destruct (DOMToArray _ _ _) as [[u s']| |] eqn:Hrun; intros [= <-].
  apply DOMToArray_frame in Hrun. exact Hrun.
Qed.

Lemma constructed_cursor s : constructed s → i s = 0%Z.
Proof.
  intros [(S & h & g & ->)|(fuel & element & h & g & Hs)]; [reflexivity|].
  eapply getDOMIterator_Ok, Hs.
Qed.

(** * The claims *)

(** ** Literal construction and the single operations *)

(** C1: for every literal sequence [S] of length [n], [n] calls of
    [getNext] return the elements of [S] in order (the k-th call returns
    the k-th element) and call [n+1] returns [null]; on the empty literal
    [hasNext] is false at once and [getNext] and [getCurrent] return
    [null] without throwing. *)
Theorem C1_getNext_returns_literal_in_order
    (S : list value) (h : dom_heap) (g : option value) :
  result (calls (replicate (length S) GetNext) (myObj S h g)) = Ok S ∧
  result (calls (replicate (length S) GetNext ++ [GetNext]) (myObj S h g))
    = Ok (S ++ [VNull]) ∧
  hasNext (myObj [] h g) = Ok (false, myObj [] h g) ∧
  getNext (myObj [] h g) = Ok (VNull, myObj [] h g) ∧
  getCurrent (myObj [] h g) = Ok (VNull, myObj [] h g).
Proof.
  destruct (getNext_rest h S [] g) as [g' Hn]. cbn [app length] in Hn.
  change (calls (replicate (length S) GetNext) (myObj S h g) = Ok
            (S, {| heap := h; elem := g'; i := Z.of_nat (length S); data := S |}))
    in Hn.
  split; [rewrite Hn; reflexivity|].
  split; [|repeat split; reflexivity].
  erewrite calls_app; [reflexivity|exact Hn|].
  eapply calls_cons; [|reflexivity].
  rewrite call_eq. unfold len. cbn [i data]. rewrite Z.ltb_irrefl. reflexivity.
Qed.

(** C8: over a sequence of length [n] and at every cursor [c], [hasNext]
    returns true exactly when [c < n], and leaves the whole state as it
    was. *)
Theorem C8_hasNext_iff_cursor_below_length
    (h : dom_heap) (g : option value) (c : Z) (items : list value) :
  let s := {| heap := h; elem := g; i := c; data := items |} in
  ∃ b, hasNext s = Ok (b, s) ∧ (b = true ↔ (c < Z.of_nat (length items))%Z).
Proof.
  intros s. exists (c <? Z.of_nat (length items))%Z.
  split; [reflexivity|apply Z.ltb_lt].
Qed.

(** C5: whenever [hasNext] is false, [getNext] returns [null] and the
    state after the call (cursor, items, the global, the document) is the
    state before it. *)
Theorem C5_getNext_exhausted_is_noop (s : state) :
  result (hasNext s) = Ok false → getNext s = Ok (VNull, s).
Proof.
  autorewrite with iterator. cbn [result]. intros [= ->]. reflexivity.
Qed.

Lemma C5_getNext_exhausted_is_noop_witness :
  let s := {| heap := ∅; elem := Some (VNum 5); i := 5; data := myObj_data |} in
  result (hasNext s) = Ok false ∧ getNext s = Ok (VNull, s).
Proof.
  split; [reflexivity|].
  apply (C5_getNext_exhausted_is_noop
           {| heap := ∅; elem := Some (VNum 5); i := 5; data := myObj_data |}).
  reflexivity.
Defined.

(** C7: [getCurrent] leaves the cursor and the items (the whole state)
    unchanged, and any number of consecutive calls return the same
    result. *)
Theorem C7_getCurrent_is_pure_and_repeatable (s : state) :
  ∃ v, getCurrent s = Ok (v, s) ∧
       ∀ k, calls (replicate k GetCurrent) s = Ok (replicate k v, s).
Proof.
  eexists. split; [apply getCurrent_eq|].
  induction k as [|k IH]; [reflexivity|].
  cbn [replicate]. eapply calls_cons; [|exact IH].
  cbn [call]. apply getCurrent_eq.
Qed.

(** C10: when no item is [null], [getNext] returns [null] exactly when
    [hasNext] is false at the call, and so does [getCurrent]. *)
Theorem C10_null_iff_exhausted (s : state) :
  VNull ∉ data s →
  (result (getNext s) = Ok VNull ↔ result (hasNext s) = Ok false) ∧
  (result (getCurrent s) = Ok VNull ↔ result (hasNext s) = Ok false).
Proof.
  intros Hnull. autorewrite with iterator.
  pose proof (index_not_null (data s) (i s) Hnull) as Hidx.
  destruct (i s <? len s)%Z; cbn [result]; split; split; intros Heq;
    try reflexivity; try discriminate Heq.
  all: injection Heq as Heq; contradiction.
Qed.

Lemma C10_null_iff_exhausted_witness :
  (result (getNext (myObj myObj_data ∅ None)) = Ok VNull ↔
   result (hasNext (myObj myObj_data ∅ None)) = Ok false) ∧
  (result (getCurrent (myObj myObj_data ∅ None)) = Ok VNull ↔
   result (hasNext (myObj myObj_data ∅ None)) = Ok false).
Proof.
  apply (C10_null_iff_exhausted (myObj myObj_data ∅ None)).
  cbn [data myObj myObj_data]. intros Hin.
  repeat (apply elem_of_cons in Hin as [Hin|Hin]; [discriminate Hin|]).
  inversion Hin.
Defined.

(** ** The cursor invariant *)

(** C4: [0 <= cursor <= length items] holds for an iterator built by
    either block, is kept by each of the four methods, hence holds after
    every sequence of calls (none of which throws); and a call that
    changes the cursor is a [getNext] or a [rewind]. *)
Theorem C4_cursor_invariant (s0 : state) (ms : list method) :
  constructed s0 →
  cursor_inv s0 ∧
  (∃ vs s, calls ms s0 = Ok (vs, s) ∧ cursor_inv s) ∧
  (∀ m s v s', cursor_inv s → call m s = Ok (v, s') →
     cursor_inv s' ∧ (i s' ≠ i s → m = GetNext ∨ m = Rewind)).
Proof.
  intros Hs0.
  assert (cursor_inv s0) as Hinv.
  { unfold cursor_inv, len. rewrite (constructed_cursor _ Hs0). lia. }
  split; [exact Hinv|]. split.
  - destruct (calls_total ms s0) as (vs & s & Hrun & _ & _ & Hkeep). eauto.
  - intros m s v s' Hs Hm. split; [eapply call_cursor_inv; eauto|].
    revert Hm. rewrite call_eq.
    destruct m; try destruct (i s <? len s)%Z; intros [= <- <-]; auto;
      intros Hne; contradiction Hne; reflexivity.
Qed.

Lemma C4_cursor_invariant_witness :
  cursor_inv (myObj myObj_data ∅ None) ∧
  (∃ vs s, calls [GetNext; GetCurrent; Rewind; HasNext]
             (myObj myObj_data ∅ None) = Ok (vs, s) ∧ cursor_inv s) ∧
  (∀ m s v s', cursor_inv s → call m s = Ok (v, s') →
     cursor_inv s' ∧ (i s' ≠ i s → m = GetNext ∨ m = Rewind)).
Proof.
  apply (C4_cursor_invariant (myObj myObj_data ∅ None)
           [GetNext; GetCurrent; Rewind; HasNext]).
  left. exists myObj_data, ∅, None. reflexivity.
Defined.

(** ** Rewinding *)

(** C6: [rewind] always returns and sets the cursor to 0; two rewinds do
    what one does; and after any sequence of calls on a fresh iterator
    (with any number of rewinds anywhere), [rewind] followed by the
    consumer loop yields what the first such loop on the fresh iterator
    yields: all the items in order. *)
Theorem C6_rewind_restarts (s0 : state) (ms : list method) (fuel : nat) :
  constructed s0 → (len s0 < Z.of_nat fuel)%Z →
  (∀ s, rewind s = Ok ((), at_start s) ∧ i (at_start s) = 0%Z ∧
        (rewind;; rewind) s = rewind s) ∧
  ∃ vs s, calls ms s0 = Ok (vs, s) ∧
          result (drain fuel s0) = Ok (data s0) ∧
          result ((rewind;; drain fuel) s) = Ok (data s0).
Proof.
  intros Hs0 Hfuel. split; [intros s; repeat split; reflexivity|].
  destruct (calls_total ms s0) as (vs & s & Hrun & Hdata & _ & _).
  exists vs, s. split; [exact Hrun|].
  pose proof (constructed_cursor _ Hs0) as Hi0.
  split.
  - destruct (drain_from s0 fuel) as (s' & Hd & _).
    + unfold cursor_inv, len. rewrite Hi0. lia.
    + lia.
    + rewrite Hd, Hi0. reflexivity.
  - erewrite bind_Ok by apply rewind_eq.
    destruct (drain_from (at_start s) fuel) as (s' & Hd & _).
    + unfold cursor_inv, len. cbn [at_start i data]. lia.
    + unfold len in *. cbn [at_start i data]. rewrite Hdata. lia.
    + rewrite Hd. cbn [at_start i data result]. rewrite Hdata. reflexivity.
Qed.

Lemma C6_rewind_restarts_witness :
  (∀ s, rewind s = Ok ((), at_start s) ∧ i (at_start s) = 0%Z ∧
        (rewind;; rewind) s = rewind s) ∧
  ∃ vs s, calls [GetNext; GetNext; Rewind; Rewind; GetNext]
            (myObj myObj_data ∅ None) = Ok (vs, s) ∧
          result (drain 6 (myObj myObj_data ∅ None)) = Ok myObj_data ∧
          result ((rewind;; drain 6) s) = Ok myObj_data.
Proof.
  apply (C6_rewind_restarts (myObj myObj_data ∅ None)
           [GetNext; GetNext; Rewind; Rewind; GetNext] 6).
  - left. exists myObj_data, ∅, None. reflexivity.
  - reflexivity.
Defined.

(** ** The DOM iterator *)

Lemma getDOMIterator_tree h g t fuel :
  is_tree h t → depth t ≤ fuel →
  getDOMIterator fuel (VRef (root t)) h g
  = Ok {| heap := h; elem := g; i := 0; data := preorder t |}.
Proof.
  intros Ht Hfuel. unfold getDOMIterator.
  rewrite (DOMToArray_tree h g 0 t Ht fuel Hfuel []). reflexivity.
Qed.

Lemma is_element_tree h t :
  is_tree h t → is_element h (VRef (root t)) = (nodeType (label t) =? 1)%Z.
Proof.
  intros Ht. inversion Ht as [l n ts Hl _ _]; subst.
  unfold is_element. cbn [root label get_nodeType]. rewrite Hl.
  apply strict_eq_num.
Qed.

(** C2: for every tree of the document whose root passes the test of
    [DOMToArray], [getDOMIterator] returns (given fuel for the depth of the
    tree) an iterator at cursor 0 whose items are the pre-order traversal
    of the tree, there before any call; the consumer loop then yields
    exactly these items; and for a root with two leaf element children they
    are root, first child, second child. *)
Theorem C2_getDOMIterator_materializes_preorder
    (h : dom_heap) (g : option value) (t : tree) (fuel : nat) :
  is_tree h t → is_element h (VRef (root t)) = true → depth t ≤ fuel →
  let s0 := {| heap := h; elem := g; i := 0; data := preorder t |} in
  getDOMIterator fuel (VRef (root t)) h g = Ok s0 ∧
  result (drain (S (length (preorder t))) s0) = Ok (preorder t) ∧
  (∀ r c1 c2 nr n1 n2,
     t = Tree r nr [Tree c1 n1 []; Tree c2 n2 []] →
     nodeType n1 = 1%Z → nodeType n2 = 1%Z →
     preorder t = [VRef r; VRef c1; VRef c2]).
Proof.
  intros Ht Hroot Hfuel s0. rewrite (is_element_tree _ _ Ht) in Hroot.
  split; [apply getDOMIterator_tree; assumption|]. split.
  - destruct (drain_from s0 (S (length (preorder t)))) as (s' & Hd & _).
    + unfold cursor_inv, len, s0. cbn [i data]. lia.
    + unfold len, s0. cbn [i data]. lia.
    + rewrite Hd. reflexivity.
  - intros r c1 c2 nr n1 n2 -> H1 H2. cbn [label] in Hroot.
    cbn. rewrite Hroot, H1, H2. reflexivity.
Qed.

Lemma C2_getDOMIterator_materializes_preorder_witness :
  let items := [VRef ul; VRef li1; VRef li2] in
  let s0 := {| heap := two_leaf_heap; elem := None; i := 0; data := items |} in
  getDOMIterator 2 (VRef ul) two_leaf_heap None = Ok s0 ∧
  result (drain 4 s0) = Ok items.
Proof.
  intros items s0.
  destruct (C2_getDOMIterator_materializes_preorder
              two_leaf_heap None two_leaf_tree 2) as (Hmake & Hdrain & _).
  - repeat constructor.
  - reflexivity.
  - cbn. lia.
  - split; [exact Hmake|exact Hdrain].
Defined.

(** The document of the source: the items are ul, li, a, li, a. *)
Example ul_tree_items :
  is_tree ul_heap ul_tree ∧
  getDOMIterator 3 (VRef ul) ul_heap None
  = Ok {| heap := ul_heap; elem := None; i := 0;
          data := [VRef ul; VRef li1; VRef a1; VRef li2; VRef a2] |}.
Proof.
  assert (is_tree ul_heap ul_tree) as Ht by repeat constructor.
  split; [exact Ht|]. apply (getDOMIterator_tree _ _ _ 3 Ht). cbn. lia.
Qed.

(** [null] and [undefined] have no properties: testing them throws. *)
Lemma getDOMIterator_nullish fuel element h g :
  element = VNull ∨ element = VUndefined →
  getDOMIterator (S fuel) element h g = Throw TypeError.
Proof. intros [->| ->]; reflexivity. Qed.

(** C3, as stated, fails: [null] (what [document.querySelector('ul')]
    returns on a page without a list) does not pass the test, yet
    [getDOMIterator(null)] throws a TypeError instead of returning an
    empty iterator. *)
Lemma C3_null_root_throws :
  is_element ∅ VNull = false ∧
  getDOMIterator 1 VNull ∅ None = Throw TypeError.
Proof. split; reflexivity. Qed.

(** C3, amended: for every root other than [null] and [undefined] that
    does not pass the test of [DOMToArray], [getDOMIterator] returns an
    iterator with no items ([hasNext] false, [getNext] and [getCurrent]
    [null]); and none of the four methods throws, in any state. *)
Theorem C3_non_element_root_gives_empty_iterator
    (element : value) (h : dom_heap) (g : option value) (fuel : nat) :
  element ≠ VNull → element ≠ VUndefined → is_element h element = false →
  let s0 := {| heap := h; elem := g; i := 0; data := [] |} in
  getDOMIterator (S fuel) element h g = Ok s0 ∧
  hasNext s0 = Ok (false, s0) ∧
  getNext s0 = Ok (VNull, s0) ∧
  getCurrent s0 = Ok (VNull, s0) ∧
  (∀ m s, ∃ v s', call m s = Ok (v, s')).
Proof.
  intros Hnull Hundef Htest s0.
  split; [|repeat split; try reflexivity; apply call_total].
  unfold getDOMIterator. cbn [DOMToArray].
  unfold is_element in Htest. unfold mbind, M_bind, read. cbn [heap].
  destruct element as [| |b|n|str|l]; try contradiction; try reflexivity.
  cbn [get_nodeType] in *. destruct (h !! l) as [n|]; [|reflexivity].
  rewrite Htest. reflexivity.
Qed.

Lemma C3_non_element_root_gives_empty_iterator_witness :
  let h : dom_heap := {[ a1 := Node "#text" 3 [] ]} in
  let s0 := {| heap := h; elem := None; i := 0; data := [] |} in
  getDOMIterator 1 (VRef a1) h None = Ok s0 ∧
  hasNext s0 = Ok (false, s0) ∧
  getNext s0 = Ok (VNull, s0) ∧
  getCurrent s0 = Ok (VNull, s0) ∧
  (∀ m s, ∃ v s', call m s = Ok (v, s')).
Proof.
  apply (C3_non_element_root_gives_empty_iterator
           (VRef a1) {[ a1 := Node "#text" 3 [] ]} None 0).
  - discriminate.
  - discriminate.
  - reflexivity.
Defined.

(** ** Independence from the document *)

Lemma call_same m s1 s2 :
  same_iterator s1 s2 →
  ∃ v s1' s2', call m s1 = Ok (v, s1') ∧ call m s2 = Ok (v, s2') ∧
               same_iterator s1' s2'.
Proof.
  intros [Hi Hd]. rewrite !call_eq. unfold len. rewrite Hi, Hd.
  destruct m; try destruct (i s2 <? _)%Z;
    do 3 eexists; (split; [reflexivity|]); (split; [reflexivity|]);
    unfold same_iterator; cbn [advance at_start i data]; auto with f_equal.
Qed.

(** A run with changes of the document in between returns what the same
    calls return without them. *)
Lemma run_calls es : ∀ s1 s2,
  same_iterator s1 s2 →
  ∃ vs s1' s2', run es s1 = Ok (vs, s1') ∧
                calls (method_calls es) s2 = Ok (vs, s2') ∧
                same_iterator s1' s2'.
Proof.
  induction es as [|[m|h'] es IH]; intros s1 s2 Hsame.
  - exists [], s1, s2. auto.
  - destruct (call_same m s1 s2 Hsame) as (v & s1' & s2' & H1 & H2 & Hsame').
    destruct (IH s1' s2' Hsame') as (vs & s1'' & s2'' & Hr1 & Hr2 & Hsame'').
    exists (v :: vs), s1'', s2''. split; [|split; [|exact Hsame'']].
    + cbn [run]. rewrite (bind_Ok _ _ _ _ _ H1), (bind_Ok _ _ _ _ _ Hr1).
      reflexivity.
    + cbn [method_calls]. eapply calls_cons; eauto.
  - destruct (IH {| heap := h'; elem := elem s1; i := i s1; data := data s1 |} s2)
      as (vs & s1' & s2' & Hr1 & Hr2 & Hsame'); [exact Hsame|].
    exists vs, s1', s2'. auto.
Qed.

(** C9: what [hasNext], [getCurrent] and [getNext] return after
    [getDOMIterator] depends on the items and the cursor only.  Two
    iterators built from any two documents that hold the same items
    return the same results for the same calls, whatever changes of the
    document happen between the calls of either run. *)
Theorem C9_results_depend_on_items_only
    (fuel1 fuel2 : nat) (root1 root2 : value) (h1 h2 : dom_heap)
    (g1 g2 : option value) (s1 s2 : state) (es1 es2 : list event) :
  getDOMIterator fuel1 root1 h1 g1 = Ok s1 →
  getDOMIterator fuel2 root2 h2 g2 = Ok s2 →
  data s1 = data s2 →
  method_calls es1 = method_calls es2 →
  ∃ vs, result (run es1 s1) = Ok vs ∧ result (run es2 s2) = Ok vs.
Proof.
  intros Hs1 Hs2 Hdata Hcalls.
  apply getDOMIterator_Ok in Hs1 as (_ & _ & Hi1).
  apply getDOMIterator_Ok in Hs2 as (_ & _ & Hi2).
  assert (same_iterator s1 s1) as H11 by (split; reflexivity).
  assert (same_iterator s2 s1) as H21 by (split; congruence).
  destruct (run_calls es1 s1 s1 H11) as (vs & s1' & s1'' & Hr1 & Hc1 & _).
  destruct (run_calls es2 s2 s1 H21) as (vs' & s2' & s2'' & Hr2 & Hc2 & _).
  rewrite <- Hcalls, Hc1 in Hc2. injection Hc2 as <- _.
  exists vs. rewrite Hr1, Hr2. split; reflexivity.
Qed.

Lemma C9_results_depend_on_items_only_witness :
  let h2 : dom_heap :=
    <[a2 := Node "SPAN" 1 [li1]]> (<[li1 := Node "#comment" 8 []]> ∅) in
  let s1 := {| heap := ul_heap; elem := None; i := 0; data := [VRef a2] |} in
  let s2 := {| heap := h2; elem := Some VNull; i := 0; data := [VRef a2] |} in
  ∃ vs,
    result (run [Call GetNext; Mutate ∅; Call GetCurrent; Call HasNext] s1) = Ok vs ∧
    result (run [Mutate ul_heap; Call GetNext; Call GetCurrent; Call HasNext] s2)
      = Ok vs.
Proof.
  intros h2 s1 s2.
  refine (C9_results_depend_on_items_only 1 2 (VRef a2) (VRef a2) ul_heap h2
            None (Some VNull) s1 s2
            [Call GetNext; Mutate ∅; Call GetCurrent; Call HasNext]
            [Mutate ul_heap; Call GetNext; Call GetCurrent; Call HasNext]
            _ _ _ _); reflexivity.
Defined.

(** * The [Symbol.iterator] blocks *)

(** What both blocks print: 1, 2, 3, 4. *)
Example obj_classical : spread 5 (Classical.Symbol_iterator obj)
                        = Some [VNum 1; VNum 2; VNum 3; VNum 4].
Proof. reflexivity. Qed.

Example obj_generator : spread 5 (Generator.Symbol_iterator obj)
                        = Some [VNum 1; VNum 2; VNum 3; VNum 4].
Proof. reflexivity. Qed.

(** * Further properties of the two iterators *)

(** ** What [DOMToArray] pushes *)

Lemma is_element_spec h v :
  is_element h v = true ↔ ∃ l n, v = VRef l ∧ h !! l = Some n ∧ nodeType n = 1%Z.
Proof.
  unfold is_element. split.
  - destruct v as [| |b|k|str|l]; cbn [get_nodeType]; try discriminate.
    destruct (h !! l) as [n|] eqn:Hl; [|discriminate].
    rewrite strict_eq_num. intros Hn%Z.eqb_eq. eauto.
  - intros (l & n & -> & Hl & Hn). cbn [get_nodeType].
    rewrite Hl, strict_eq_num. apply Z.eqb_eq, Hn.
Qed.

Lemma forEach_appends {A} (f : A → M unit) (P : dom_heap → value → Prop) :
  (∀ x s u s', f x s = Ok (u, s') →
     ∃ d', data s' = data s ++ d' ∧ heap s' = heap s ∧ Forall (P (heap s)) d') →
  ∀ arr s u s', forEach f arr s = Ok (u, s') →
     ∃ d', data s' = data s ++ d' ∧ heap s' = heap s ∧ Forall (P (heap s)) d'.
Proof.
  intros Hf. induction arr as [|x arr IH]; intros s u s' Hrun.
  - injection Hrun as _ <-. exists []. rewrite app_nil_r. auto.
  - cbn [forEach] in Hrun.
    apply bind_Ok_inv in Hrun as (u1 & s1 & Hx & Hrest).
    destruct (Hf _ _ _ _ Hx) as (d1 & Hd1 & Hh1 & HP1).
    destruct (IH _ _ _ Hrest) as (d2 & Hd2 & Hh2 & HP2).
    rewrite Hh1 in HP2.
    exists (d1 ++ d2). rewrite Hd2, Hd1, app_assoc.
    split; [reflexivity|]. split; [congruence|]. apply Forall_app; auto.
Qed.

(** [DOMToArray] only appends, and what it appends passed its test; the
    argument itself comes first. *)
Lemma DOMToArray_appends fuel : ∀ element s u s',
  DOMToArray fuel element s = Ok (u, s') →
  ∃ d', data s' = data s ++ d' ∧ heap s' = heap s ∧
        Forall (λ v, is_element (heap s) v = true) d' ∧
        d' = (if is_element (heap s) element then element :: tail d' else []).
Proof.
  induction fuel as [|fuel IH]; intros element s u s' Hrun; [discriminate|].
  cbn [DOMToArray] in Hrun.
  apply bind_Ok_inv in Hrun as (nt & s1 & Hnt & Hrun).
  apply read_Ok_inv in Hnt as [-> Hnt].
  unfold is_element at 2. rewrite Hnt.
  destruct (strict_eq nt (VNum 1)) eqn:Htest.
  - apply bind_Ok_inv in Hrun as (u1 & s1 & [= _ <-] & Hrun).
    apply bind_Ok_inv in Hrun as (cs & s2 & Hcs & Hrun).
    apply read_Ok_inv in Hcs as [-> _].
    eapply (forEach_appends _ (λ h v, is_element h v = true)) in Hrun.
    + destruct Hrun as (d' & Hd' & Hh' & HP). cbn [data heap] in Hd', Hh'.
      exists (element :: d'). rewrite Hd', <- app_assoc.
      split; [reflexivity|]. split; [exact Hh'|]. split; [|reflexivity].
      constructor; [|exact HP]. unfold is_element. rewrite Hnt. exact Htest.
    + intros x s3 u3 s3' Hx.
      destruct (IH _ _ _ _ Hx) as (d3 & Hd3 & Hh3 & HP3 & _).
      exists d3. auto.
  - injection Hrun as _ <-. exists []. rewrite app_nil_r. auto.
Qed.

(** X1: every item of an iterator built by [getDOMIterator] is a
    reference to a node of the document with [nodeType] 1, for every
    document (tree or not) and every argument. *)
Theorem getDOMIterator_items_are_elements
    (fuel : nat) (element : value) (h : dom_heap) (g : option value) (s : state) :
  getDOMIterator fuel element h g = Ok s →
  Forall (λ v, ∃ l n, v = VRef l ∧ h !! l = Some n ∧ nodeType n = 1%Z) (data s).
Proof.
  unfold getDOMIterator.
  destruct (DOMToArray _ _ _) as [[u s']| |] eqn:Hrun; intros [= <-].
  apply DOMToArray_appends in Hrun as (d' & Hd' & _ & HP & _).
  cbn [data heap] in Hd', HP. rewrite Hd'. cbn [app].
  eapply Forall_impl; [exact HP|]. intros v Hv. apply is_element_spec, Hv.
Qed.

Lemma getDOMIterator_items_are_elements_witness :
  Forall (λ v, ∃ l n, v = VRef l ∧ ul_heap !! l = Some n ∧ nodeType n = 1%Z)
    [VRef ul; VRef li1; VRef a1; VRef li2; VRef a2].
Proof.
  apply (getDOMIterator_items_are_elements 3 (VRef ul) ul_heap None
           {| heap := ul_heap; elem := None; i := 0;
              data := [VRef ul; VRef li1; VRef a1; VRef li2; VRef a2] |}).
  reflexivity.
Defined.

(** X2: an argument that passes the test of [DOMToArray] is the first
    item of the iterator, for every document. *)
Theorem getDOMIterator_root_first
    (fuel : nat) (element : value) (h : dom_heap) (g : option value) (s : state) :
  is_element h element = true →
  getDOMIterator fuel element h g = Ok s →
  ∃ rest, data s = element :: rest.
Proof.
  intros Helem. unfold getDOMIterator.
  destruct (DOMToArray _ _ _) as [[u s']| |] eqn:Hrun; intros [= <-].
  apply DOMToArray_appends in Hrun as (d' & Hd' & _ & _ & Hshape).
  cbn [data heap] in Hd', Hshape. rewrite Helem in Hshape.
  exists (tail d'). rewrite Hd', Hshape. reflexivity.
Qed.

Lemma getDOMIterator_root_first_witness :
  ∃ rest, [VRef li1; VRef a1] = VRef li1 :: rest.
Proof.
  apply (getDOMIterator_root_first 2 (VRef li1) ul_heap None
           {| heap := ul_heap; elem := None; i := 0; data := [VRef li1; VRef a1] |});
    reflexivity.
Defined.

(** ** Runs of calls, with the document changing in between *)

Lemma run_total es : ∀ s,
  ∃ vs s', run es s = Ok (vs, s') ∧ data s' = data s ∧
           length vs = length (method_calls es).
Proof.
  induction es as [|[m|h'] es IH]; intros s.
  - exists [], s. auto.
  - destruct (call_total m s) as (v & s1 & Hm).
    destruct (IH s1) as (vs & s2 & Hrun & Hd & Hlen).
    exists (v :: vs), s2. split; [|split].
    + cbn [run]. rewrite (bind_Ok _ _ _ _ _ Hm), (bind_Ok _ _ _ _ _ Hrun).
      reflexivity.
    + rewrite Hd. eapply call_data, Hm.
    + cbn [method_calls length]. rewrite Hlen. reflexivity.
  - destruct (IH {| heap := h'; elem := elem s; i := i s; data := data s |})
      as (vs & s2 & Hrun & Hd & Hlen).
    exists vs, s2. auto.
Qed.

(** X3: the items are fixed at construction: no sequence of calls and
    of changes to the document throws or changes [data], and every call
    returns one value. *)
Theorem run_keeps_items (es : list event) (s : state) :
  ∃ vs s', run es s = Ok (vs, s') ∧ data s' = data s ∧
           length vs = length (method_calls es).
Proof. apply run_total. Qed.

(** X4: for an iterator built by [getDOMIterator], [null] means
    exhaustion: at any later point, whatever was called and however the
    document changed, [getNext] (and [getCurrent]) returns [null] exactly
    when [hasNext] is false. *)
Theorem getDOMIterator_null_iff_exhausted
    (fuel : nat) (element : value) (h : dom_heap) (g : option value)
    (s0 : state) (es : list event) (vs : list value) (s : state) :
  getDOMIterator fuel element h g = Ok s0 →
  run es s0 = Ok (vs, s) →
  (result (getNext s) = Ok VNull ↔ result (hasNext s) = Ok false) ∧
  (result (getCurrent s) = Ok VNull ↔ result (hasNext s) = Ok false).
Proof.
  intros Hs0 Hrun.
  assert (VNull ∉ data s) as Hnull.
  { destruct (run_total es s0) as (vs' & s' & Hrun' & Hd & _).
    rewrite Hrun in Hrun'. injection Hrun' as _ <-. rewrite Hd.
    unfold getDOMIterator in Hs0.
    destruct (DOMToArray _ _ _) as [[u s1]| |] eqn:Hwalk; try discriminate Hs0.
    injection Hs0 as <-.
    apply DOMToArray_appends in Hwalk as (d' & Hd' & _ & HP & _).
    cbn [data heap] in Hd', HP. rewrite Hd'. cbn [app].
    intros Hin. rewrite Forall_forall in HP. specialize (HP _ Hin).
    discriminate HP. }
  autorewrite with iterator.
  pose proof (index_not_null (data s) (i s) Hnull) as Hidx.
  destruct (i s <? len s)%Z; cbn [result]; split; split; intros Heq;
    try reflexivity; try discriminate Heq.
  all: injection Heq as Heq; contradiction.
Qed.

Lemma getDOMIterator_null_iff_exhausted_witness :
  let s := {| heap := ∅; elem := Some (VRef ul); i := 1;
              data := [VRef ul; VRef li1; VRef a1; VRef li2; VRef a2] |} in
  (result (getNext s) = Ok VNull ↔ result (hasNext s) = Ok false) ∧
  (result (getCurrent s) = Ok VNull ↔ result (hasNext s) = Ok false).
Proof.
  intros s.
  refine (getDOMIterator_null_iff_exhausted 3 (VRef ul) ul_heap None
            {| heap := ul_heap; elem := None; i := 0;
               data := [VRef ul; VRef li1; VRef a1; VRef li2; VRef a2] |}
            [Call GetNext; Mutate ∅; Call GetCurrent] [VRef ul; VRef li1] s _ _);
    reflexivity.
Defined.

(** ** How the methods compose *)

(** X5: [getCurrent] announces what [getNext] returns: called one
    after the other they return the same value, an item or [null]. *)
Theorem getCurrent_then_getNext (s : state) :
  ∃ v s', (v1 ← getCurrent; v2 ← getNext; mret (v1, v2)) s = Ok ((v, v), s').
Proof.
  erewrite bind_Ok by apply getCurrent_eq.
  destruct (i s <? len s)%Z eqn:Hlt.
  - exists (index (data s) (i s)), (advance s).
    erewrite bind_Ok by (rewrite getNext_eq, Hlt; reflexivity). reflexivity.
  - exists VNull, s.
    erewrite bind_Ok by (rewrite getNext_eq, Hlt; reflexivity). reflexivity.
Qed.

Lemma getNext_prefix h : ∀ k pre rest g,
  k ≤ length rest →
  ∃ g', calls (replicate k GetNext)
          {| heap := h; elem := g; i := Z.of_nat (length pre); data := pre ++ rest |}
        = Ok (take k rest,
              {| heap := h; elem := g';
                 i := Z.of_nat (length pre + k); data := pre ++ rest |}).
Proof.
  induction k as [|k IH]; intros pre rest g Hk.
  - exists g. rewrite Nat.add_0_r. reflexivity.
  - destruct rest as [|x rest]; [cbn in Hk; lia|].
    destruct (IH (pre ++ [x]) rest (Some x)) as [g' Hg']; [cbn in Hk; lia|].
    exists g'. cbn [replicate take].
    rewrite <- (app_assoc pre [x] rest), length_app in Hg'. cbn [app length] in Hg'.
    replace (length pre + S k) with (length pre + 1 + k) by lia.
    eapply calls_cons; [|rewrite Nat2Z.inj_add in Hg'; exact Hg'].
    rewrite call_eq. unfold len. cbn [i data].
    destruct (Z.ltb_spec (Z.of_nat (length pre)) (Z.of_nat (length (pre ++ x :: rest))))
      as [_|Hge]; [|rewrite length_app in Hge; cbn in Hge; lia].
    unfold advance. cbn [heap elem i data].
    rewrite (index_lookup _ _ x); [reflexivity|].
    rewrite lookup_app_r, Nat.sub_diag by lia. reflexivity.
Qed.

Lemma getNext_exhausted s : ∀ k,
  (len s ≤ i s)%Z → calls (replicate k GetNext) s = Ok (replicate k VNull, s).
Proof.
  intros k Hend. induction k as [|k IH]; [reflexivity|].
  cbn [replicate]. eapply calls_cons; [|exact IH].
  rewrite call_eq. destruct (Z.ltb_spec (i s) (len s)); [lia|reflexivity].
Qed.

(** X6: [k] calls of [getNext] on a fresh iterator return the first
    [k] items, padded with [null] once the items are used up, and leave
    the cursor at [min k n]: past the end the iterator stays exhausted. *)
Theorem getNext_k_calls (s0 : state) (k : nat) :
  constructed s0 →
  ∃ s, calls (replicate k GetNext) s0
       = Ok (take k (data s0) ++ replicate (k - length (data s0)) VNull, s) ∧
       i s = Z.of_nat (k `min` length (data s0)).
Proof.
  intros Hi0%constructed_cursor. destruct s0 as [h g c d]. cbn [i data] in *.
  subst c. destruct (decide (k ≤ length d)) as [Hle|Hgt].
  - destruct (getNext_prefix h k [] d g Hle) as [g' Hpre].
    cbn [app length Nat.add] in Hpre.
    eexists. replace (k - length d) with 0 by lia.
    rewrite app_nil_r, Nat.min_l by lia. split; [exact Hpre|reflexivity].
  - destruct (getNext_prefix h (length d) [] d g) as [g' Hpre]; [lia|].
    cbn [app length Nat.add] in Hpre. rewrite firstn_all in Hpre.
    eexists. rewrite (take_ge d k), Nat.min_r by lia.
    replace k with (length d + (k - length d)) at 1 by lia.
    rewrite replicate_add. split.
    + eapply calls_app; [exact Hpre|].
      apply getNext_exhausted. unfold len. cbn [i data]. lia.
    + reflexivity.
Qed.

Lemma getNext_k_calls_witness :
  ∃ s, calls (replicate 7 GetNext) (myObj myObj_data ∅ None)
       = Ok (take 7 myObj_data ++ replicate (7 - length myObj_data) VNull, s) ∧
       i s = Z.of_nat (7 `min` length myObj_data).
Proof.
  apply (getNext_k_calls (myObj myObj_data ∅ None) 7).
  left. exists myObj_data, ∅, None. reflexivity.
Defined.

(** X7: the consumer loop yields the items from the cursor on and
    leaves the iterator exhausted: [hasNext] is then false and a second
    loop yields nothing (until a [rewind]). *)
Theorem drain_exhausts (s : state) (fuel : nat) :
  cursor_inv s → (len s - i s < Z.of_nat fuel)%Z →
  ∃ s', drain fuel s = Ok (drop (Z.to_nat (i s)) (data s), s') ∧
        hasNext s' = Ok (false, s') ∧
        drain fuel s' = Ok ([], s').
Proof.
  intros Hinv Hfuel.
  destruct (drain_from s fuel Hinv Hfuel) as (s' & Hd & Hdata & Hi & _).
  exists s'. split; [exact Hd|].
  assert ((i s' <? len s')%Z = false) as Hend.
  { apply Z.ltb_ge. unfold len in *. rewrite Hdata, Hi. lia. }
  split; [rewrite hasNext_eq, Hend; reflexivity|].
  destruct fuel as [|fuel]; [destruct Hinv; lia|].
  cbn [drain]. erewrite bind_Ok by apply hasNext_eq. rewrite Hend. reflexivity.
Qed.

Lemma drain_exhausts_witness :
  ∃ s', drain 6 (myObj myObj_data ∅ None) = Ok (myObj_data, s') ∧
        hasNext s' = Ok (false, s') ∧
        drain 6 s' = Ok ([], s').
Proof.
  apply (drain_exhausts (myObj myObj_data ∅ None) 6).
  - vm_compute. split; discriminate.
  - reflexivity.
Defined.

(** ** Consuming an object through [Symbol.iterator] *)

Lemma spread_S {I} `{Iterator I} (fuel : nat) (it : I) :
  spread (S fuel) it =
  if done (next it).1 then Some []
  else (value_ (next it).1 ::.) <$> spread fuel (next it).2.
Proof. cbn [spread]. destruct (next it). reflexivity. Qed.

Lemma lookup_middle_key (pre rest : list string) (x : string) :
  to_key ((pre ++ x :: rest) !! length pre) = x.
Proof. rewrite lookup_app_r, Nat.sub_diag by lia. reflexivity. Qed.

Lemma length_Object_keys (o : object) :
  length (Object_keys o) = length (props o).
Proof. apply length_fmap. Qed.

(** The classical iterator with [rest] still to visit. *)
Lemma classical_spread this rest : ∀ pre fuel,
  spread fuel (Classical.Iter this (pre ++ rest) (length pre))
  = if bool_decide (length rest < fuel) then Some (prop this <$> rest) else None.
Proof.
  induction rest as [|x rest IH]; intros pre [|fuel]; try reflexivity.
  - rewrite spread_S. change (next ?it) with (Classical.next it).
    unfold Classical.next.
    cbn [Classical.this Classical.keys Classical.i done fst].
    rewrite bool_decide_eq_true_2 by (rewrite app_nil_r; lia).
    rewrite bool_decide_eq_true_2 by (cbn; lia). reflexivity.
  - rewrite spread_S. change (next ?it) with (Classical.next it).
    unfold Classical.next.
    cbn [Classical.this Classical.keys Classical.i done value_ fst snd].
    rewrite bool_decide_eq_false_2 by (rewrite length_app; cbn; lia).
    rewrite lookup_middle_key.
    specialize (IH (pre ++ [x]) fuel).
    rewrite <- (app_assoc pre [x] rest), length_app in IH. cbn [app length] in IH.
    rewrite IH. cbn [length fmap list_fmap].
    destruct (decide (length rest < fuel)) as [Hlt|Hge].
    + rewrite !bool_decide_eq_true_2 by lia. reflexivity.
    + rewrite !bool_decide_eq_false_2 by lia. reflexivity.
Qed.

(** The generator resumed at the loop test with [rest] still to visit. *)
Lemma generator_loop_spread this rest : ∀ pre fuel,
  (let (r, g) := Generator.loop this (pre ++ rest) (length pre) in
   if done r then Some [] else (value_ r ::.) <$> spread fuel g)
  = if bool_decide (length rest ≤ fuel) then Some (prop this <$> rest) else None.
Proof.
  induction rest as [|x rest IH]; intros pre fuel; unfold Generator.loop.
  - rewrite bool_decide_eq_false_2 by (rewrite app_nil_r; lia).
    rewrite bool_decide_eq_true_2 by (cbn; lia). reflexivity.
  - rewrite bool_decide_eq_true_2 by (rewrite length_app; cbn; lia).
    cbn [done value_]. rewrite lookup_middle_key.
    destruct fuel as [|fuel]; [reflexivity|].
    cbn [spread]. change (next ?g) with (Generator.next g).
    unfold Generator.next. cbn [Generator.pos Generator.this].
    specialize (IH (pre ++ [x]) fuel).
    rewrite <- (app_assoc pre [x] rest), length_app in IH. cbn [app length] in IH.
    rewrite IH. cbn [length fmap list_fmap].
    destruct (decide (length rest ≤ fuel)) as [Hle|Hgt].
    + rewrite !bool_decide_eq_true_2 by lia. reflexivity.
    + rewrite !bool_decide_eq_false_2 by lia. reflexivity.
Qed.

Lemma generator_spread (o : object) (fuel : nat) :
  spread fuel (Generator.Symbol_iterator o)
  = if bool_decide (length (props o) < fuel)
    then Some (prop o <$> Object_keys o) else None.
Proof.
  destruct fuel as [|fuel]; [reflexivity|].
  cbn [spread]. change (next ?g) with (Generator.next g).
  unfold Generator.next.
  cbn [Generator.Symbol_iterator Generator.pos Generator.this].
  pose proof (generator_loop_spread o (Object_keys o) [] fuel) as Hloop.
  cbn [app length] in Hloop. rewrite Hloop, length_Object_keys.
  destruct (decide (length (props o) ≤ fuel)) as [Hle|Hgt].
  - rewrite !bool_decide_eq_true_2 by lia. reflexivity.
  - rewrite !bool_decide_eq_false_2 by lia. reflexivity.
Qed.

(** An own key reads its own value. *)
Lemma own_values (ps : list (string * value)) (f : string → value) :
  NoDup ps.*1 → (λ k, default (f k) (own ps k)) <$> ps.*1 = ps.*2.
Proof.
  induction ps as [|[k v] ps IH]; [reflexivity|].
  cbn [fmap list_fmap fst snd]. intros [Hk Hps]%NoDup_cons.
  cbn [own]. rewrite decide_True by reflexivity. cbn [default]. f_equal.
  rewrite <- (IH Hps). apply Forall_fmap_ext, Forall_forall.
  intros k' Hk'. rewrite decide_False; [reflexivity|].
  intros ->. contradiction.
Qed.

(** X8: the classical iterator lists the keys the object had when
    [[Symbol.iterator]()] was called and reads each value when it gets
    there: if the object changes after the iterator was made, consuming it
    yields the changed object's values for the original keys (a
    property added later is not visited, a removed one reads as whatever
    the prototype chain answers). *)
Theorem classical_keys_fixed_values_live (obj0 obj' : object) (fuel : nat) :
  length (props obj0) < fuel →
  spread fuel (Classical.mutate obj' (Classical.Symbol_iterator obj0))
  = Some (prop obj' <$> Object_keys obj0).
Proof.
  intros Hfuel.
  pose proof (classical_spread obj' (Object_keys obj0) [] fuel) as Hrun.
  cbn [app length] in Hrun.
  unfold Classical.mutate, Classical.Symbol_iterator.
  cbn [Classical.keys Classical.i]. rewrite Hrun.
  rewrite length_Object_keys, bool_decide_eq_true_2 by lia. reflexivity.
Qed.

Lemma classical_keys_fixed_values_live_witness :
  spread 5 (Classical.mutate
              {| props := [("a", VNum 10); ("c", VNum 3); ("e", VNum 5)];
                 inherited := λ _, VUndefined |}
              (Classical.Symbol_iterator obj))
  = Some [VNum 10; VUndefined; VNum 3; VUndefined].
Proof.
  apply (classical_keys_fixed_values_live obj
           {| props := [("a", VNum 10); ("c", VNum 3); ("e", VNum 5)];
              inherited := λ _, VUndefined |} 5).
  cbn. lia.
Defined.

(** X9: spreading an object through the classical iterator (or
    looping over it with [for...of]) yields the values of its own
    properties in key order, after one call of [next] more than there are
    keys. *)
Theorem classical_spread_own_values (obj0 : object) (fuel : nat) :
  NoDup (Object_keys obj0) → length (props obj0) < fuel →
  spread fuel (Classical.Symbol_iterator obj0) = Some (props obj0).*2.
Proof.
  intros Hkeys Hfuel.
  pose proof (classical_spread obj0 (Object_keys obj0) [] fuel) as Hrun.
  cbn [app length] in Hrun. unfold Classical.Symbol_iterator. rewrite Hrun.
  rewrite length_Object_keys, bool_decide_eq_true_2 by lia. f_equal.
  apply (own_values (props obj0) (inherited obj0) Hkeys).
Qed.

Lemma classical_spread_own_values_witness :
  spread 5 (Classical.Symbol_iterator obj) = Some [VNum 1; VNum 2; VNum 3; VNum 4].
Proof.
  apply (classical_spread_own_values obj 5).
  - refine (bool_decide_unpack (NoDup (Object_keys obj)) _). exact I.
  - cbn. lia.
Defined.

Lemma after_classical : ∀ k (it : Classical.iterator),
  after k it = Classical.Iter (Classical.this it) (Classical.keys it)
                              (Classical.i it + k).
Proof.
  induction k as [|k IH]; intros [this keys i].
  - cbn. rewrite Nat.add_0_r. reflexivity.
  - cbn [after]. rewrite IH. cbn. f_equal. lia.
Qed.

(** X10: on an object with [n] keys the classical [next] reports
    [done: false] for its first [n] calls and [done: true] for every call
    after them: the iterator never starts over. *)
Theorem classical_done_after_n_calls (obj0 : object) (k : nat) :
  done (next (after k (Classical.Symbol_iterator obj0))).1
  = bool_decide (length (props obj0) ≤ k).
Proof.
  rewrite after_classical. change (next ?it) with (Classical.next it).
  unfold Classical.next, Classical.Symbol_iterator.
  cbn [Classical.this Classical.keys Classical.i done fst].
  rewrite length_Object_keys. apply bool_decide_ext. lia.
Qed.

(** X11: the two approaches agree: for every object, the generator
    iterator and the classical one yield the same values after the same
    number of calls of [next]. *)
Theorem classical_and_generator_agree (obj0 : object) (fuel : nat) :
  spread fuel (Classical.Symbol_iterator obj0)
  = spread fuel (Generator.Symbol_iterator obj0).
Proof.
  rewrite generator_spread.
  pose proof (classical_spread obj0 (Object_keys obj0) [] fuel) as Hrun.
  cbn [app length] in Hrun. unfold Classical.Symbol_iterator. rewrite Hrun.
  rewrite length_Object_keys. reflexivity.
Qed.

(** X12: the generator reads the keys at the first [next], not when it
    is made: if the object changes in between, consuming the generator
    yields the changed object's keys and values. *)
Theorem generator_keys_read_at_first_next (obj0 obj' : object) (fuel : nat) :
  length (props obj') < fuel →
  spread fuel (Generator.mutate obj' (Generator.Symbol_iterator obj0))
  = Some (prop obj' <$> Object_keys obj').
Proof.
  intros Hfuel.
  change (Generator.mutate obj' (Generator.Symbol_iterator obj0))
    with (Generator.Symbol_iterator obj').
  rewrite generator_spread, bool_decide_eq_true_2 by lia. reflexivity.
Qed.

Lemma generator_keys_read_at_first_next_witness :
  spread 5 (Generator.mutate
              {| props := [("a", VNum 10); ("c", VNum 3); ("e", VNum 5)];
                 inherited := λ _, VUndefined |}
              (Generator.Symbol_iterator obj))
  = Some [VNum 10; VNum 3; VNum 5].
Proof.
  apply (generator_keys_read_at_first_next obj
           {| props := [("a", VNum 10); ("c", VNum 3); ("e", VNum 5)];
              inherited := λ _, VUndefined |} 5).
  cbn. lia.
Defined.

Lemma after_finished : ∀ k (g : Generator.generator),
  Generator.pos g = Generator.Finished → after k g = g.
Proof.
  induction k as [|k IH]; intros [this pos] Hpos; [reflexivity|].
  cbn in Hpos. subst pos. cbn [after]. apply (IH (Generator.Gen this _)).
  reflexivity.
Qed.

(** X13: once the generator has reported [done], every later [next]
    returns [{ value: undefined, done: true }], whatever happens to the
    object. *)
Theorem generator_finished_forever (g : Generator.generator) (k : nat) (obj' : object) :
  done (next g).1 = true →
  (next (Generator.mutate obj' (after k (next g).2))).1
  = {| value_ := VUndefined; done := true |}.
Proof.
  intros Hdone.
  assert (Generator.pos (next g).2 = Generator.Finished) as Hpos.
  { revert Hdone. change (next g) with (Generator.next g).
    unfold Generator.next, Generator.loop.
    destruct (Generator.pos g) as [|keys i|] eqn:Hg; try case_bool_decide;
      cbn; intros; try discriminate; auto. }
  rewrite after_finished by exact Hpos.
  change (next ?x) with (Generator.next x). unfold Generator.next, Generator.mutate.
  cbn [Generator.pos]. rewrite Hpos. reflexivity.
Qed.

Lemma generator_finished_forever_witness :
  (next (Generator.mutate obj
           (after 3 (next (Generator.Symbol_iterator (Obj [] (λ _, VUndefined)))).2))).1
  = {| value_ := VUndefined; done := true |}.
Proof.
  apply (generator_finished_forever
           (Generator.Symbol_iterator (Obj [] (λ _, VUndefined))) 3 obj).
  reflexivity.
Defined.

(** X14: past the last key, the classical [next] reads [this[keys[i]]]
    with [keys[i]] undefined, that is the property named "undefined": the
    result that reports [done] carries that property's value (the
    generator's carries [undefined]). *)
Theorem classical_done_value (obj0 : object) (k : nat) :
  length (props obj0) ≤ k →
  (next (after k (Classical.Symbol_iterator obj0))).1
  = {| value_ := prop obj0 "undefined"; done := true |}.
Proof.
  intros Hk. rewrite after_classical. change (next ?it) with (Classical.next it).
  unfold Classical.next, Classical.Symbol_iterator.
  cbn [Classical.this Classical.keys Classical.i fst].
  rewrite lookup_ge_None_2 by (rewrite length_Object_keys; lia).
  rewrite bool_decide_eq_true_2 by (rewrite length_Object_keys; lia).
  reflexivity.
Qed.

Lemma classical_done_value_witness :
  (next (after 1 (Classical.Symbol_iterator
                    (Obj [("undefined", VNum 7)] (λ _, VUndefined))))).1
  = {| value_ := VNum 7; done := true |}.
Proof.
  apply (classical_done_value (Obj [("undefined", VNum 7)] (λ _, VUndefined)) 1).
  cbn. lia.
Defined.
